(** * compress.py: batch resizing of the images of a directory

  A shallow embedding of [public/samples/photos/compress.py].  The script
  creates the directory [resized], lists the working directory, keeps the
  entries whose lowercased suffix is an image extension, and runs
  [magick <img> -resize 512x512> resized/<name>] once per kept entry.

  The script is fifteen lines of calls into [pathlib], [os] and
  [subprocess]; the parts of those libraries it goes through are modelled
  here after CPython (POSIX flavour), each in a module of its own, and the
  script itself is [Compress.main]. *)

From Stdlib Require Import String Ascii List Bool Arith ZArith Lia.
Import ListNotations.
Open Scope string_scope.

(** ** Python strings

  File names are modelled as byte strings (their UTF-8 encoding).  The
  only characters the script looks at are ['.'] and the ASCII letters of
  the extensions: no code point outside ASCII lowercases to one of the
  letters of [extensions] (only U+212A and U+0130 lowercase into ASCII at
  all, to [k] and to [i] followed by U+0307), so the byte-wise [lower]
  below decides membership in [extensions] as [str.lower] does. *)
Module PyStr.

(** [c.lower()] for one byte: ['A'..'Z'] move to ['a'..'z']. *)
Definition lower_char (c : ascii) : ascii :=
  let n := nat_of_ascii c in
  if ((65 <=? n) && (n <=? 90))%nat then ascii_of_nat (n + 32) else c.

(** [s.lower()]. *)
Fixpoint lower (s : string) : string :=
  match s with
  | EmptyString => EmptyString
  | String c t => String (lower_char c) (lower t)
  end.

(** [s.rfind(c)]: the highest index of [c] in [s], [-1] when there is none. *)
Fixpoint rfind (c : ascii) (s : string) : Z :=
  match s with
  | EmptyString => (-1)%Z
  | String a t =>
      let r := rfind c t in
      if (r <? 0)%Z then (if Ascii.eqb a c then 0%Z else (-1)%Z)
      else (r + 1)%Z
  end.

(** [s[i:]] for [0 <= i]. *)
Fixpoint slice_from (i : nat) (s : string) : string :=
  match i, s with
  | O, _ => s
  | S _, EmptyString => EmptyString
  | S k, String _ t => slice_from k t
  end.

(** [len(s)] as a Python int. *)
Definition len (s : string) : Z := Z.of_nat (String.length s).

(** [x in xs] for a tuple of strings. *)
Definition in_ (x : string) (xs : list string) : bool :=
  existsb (String.eqb x) xs.

(** [sep.join(parts)]. *)
Fixpoint join (sep : string) (parts : list string) : string :=
  match parts with
  | [] => EmptyString
  | [p] => p
  | p :: rest => p ++ sep ++ join sep rest
  end.

(** No occurrence of [c] in [s]. *)
Fixpoint free_of (c : ascii) (s : string) : bool :=
  match s with
  | EmptyString => true
  | String a t => negb (Ascii.eqb a c) && free_of c t
  end.

End PyStr.

(** ** pathlib: pure paths

  A relative POSIX path is the list of its components; [Path(".")] has
  none.  [truediv] is the [/] operator with a right operand that is one
  component (the script only joins ["resized"] and names of directory
  entries, which hold no ['/'] and are never ["."] or [".."]). *)
Module PurePath.
Import PyStr.

Definition Path := list string.

(** [Path(".")]. *)
Definition cur : Path := [].

(** [p / seg]. *)
Definition truediv (p : Path) (seg : string) : Path := (p ++ [seg])%list.

(** [str(p)]. *)
Definition str (p : Path) : string :=
  match p with
  | [] => "."
  | _ => join "/" p
  end.

(** [p.name]: the final component, [''] when there is none. *)
Definition name (p : Path) : string := last p EmptyString.

(** [PurePath.suffix] applied to a name:
<<
    i = name.rfind('.')
    if 0 < i < len(name) - 1: return name[i:]
    else: return ''
>> *)
Definition suffix_of_name (nm : string) : string :=
  let i := rfind "." nm in
  if ((0 <? i) && (i <? len nm - 1))%Z then slice_from (Z.to_nat i) nm
  else EmptyString.

(** [p.suffix]. *)
Definition suffix (p : Path) : string := suffix_of_name (name p).

End PurePath.

Notation "p // seg" := (PurePath.truediv p seg) (at level 40, left associativity).

(** ** The working directory

    What the script can observe and change of the file system: the entries
    of the working directory, in the order a listing yields them, and
    whether the process may add entries to it and may list it. *)
Module OS.

(** A directory entry is a file, or a directory with entries of its own. *)
#[local] Unset Elimination Schemes.
Inductive Entry : Type :=
| File (nm : string)
| Dir (nm : string) (inside : list Entry).

#[local] Set Elimination Schemes.

Definition entry_name (e : Entry) : string :=
  match e with
  | File nm => nm
  | Dir nm _ => nm
  end.

Record FS : Type := mkFS {
  entries : list Entry;
  writable : bool;
  readable : bool
}.

(** The [OSError] subclasses the calls of the script can raise. *)
Inductive Exn : Type :=
| FileExistsError
| FileNotFoundError
| PermissionError.

Definition lookup (nm : string) (es : list Entry) : option Entry :=
  find (fun e => String.eqb (entry_name e) nm) es.

(** [os.mkdir(nm)] in the working directory: [EEXIST] when the name is
    taken, [EACCES] when the directory cannot be written; the new entry is
    an empty directory (its place in later listings is the file system's
    choice; it is put last here, and no result below depends on it). *)
Definition mkdir (nm : string) (fs : FS) : Exn + FS :=
  match lookup nm (entries fs) with
  | Some _ => inl FileExistsError
  | None =>
      if writable fs
      then inr (mkFS (entries fs ++ [Dir nm []])%list (writable fs) (readable fs))
      else inl PermissionError
  end.

(** [os.path.isdir(nm)]. *)
Definition isdir (nm : string) (fs : FS) : bool :=
  match lookup nm (entries fs) with
  | Some (Dir _ _) => true
  | _ => false
  end.

(** [os.listdir('.')]: the names of the direct entries. *)
Definition listdir (fs : FS) : Exn + list string :=
  if readable fs then inr (map entry_name (entries fs)) else inl PermissionError.

(** What starting a child process and waiting for it comes to: the launch
    raises, or the child runs, changes the file system as it likes and
    exits with a return code. *)
Definition Exec : Type := list string -> FS -> Exn + (Z * FS).

End OS.

(** ** Effects

    A script is a function from the file system to an outcome: the calls
    it made in order, the file system it left, and its value or the
    exception that ended it. *)
Module Effect.
Import OS.

Inductive Event : Type :=
| EvMkdir (nm : string)
| EvIsDir (nm : string)
| EvListdir
| EvLaunch (argv : list string)
| EvExit (returncode : Z).

Record Outcome (A : Type) : Type := mkOutcome {
  trace : list Event;
  final : FS;
  result : Exn + A
}.
Arguments mkOutcome {A} _ _ _.
Arguments trace {A} _.
Arguments final {A} _.
Arguments result {A} _.

Definition M (A : Type) : Type := FS -> Outcome A.

Definition ret {A : Type} (a : A) : M A :=
  fun fs => mkOutcome [] fs (inr a).

(** Sequencing: an exception of the first part skips the second. *)
Definition bind {A B : Type} (m : M A) (k : A -> M B) : M B :=
  fun fs =>
    let o := m fs in
    match result o with
    | inl e => mkOutcome (trace o) (final o) (inl e)
    | inr a =>
        let o' := k a (final o) in
        mkOutcome (trace o ++ trace o')%list (final o') (result o')
    end.

(** [for x in xs: body(x)]. *)
Fixpoint for_each {A : Type} (xs : list A) (body : A -> M unit) : M unit :=
  match xs with
  | [] => ret tt
  | x :: rest => bind (body x) (fun _ => for_each rest body)
  end.

End Effect.

Notation "x <- m ;; k" := (Effect.bind m (fun x => k))
  (at level 61, m at next level, right associativity).
Notation "m ;;; k" := (Effect.bind m (fun _ => k))
  (at level 61, right associativity).

(** ** The library calls of the script *)
Module Lib.
Import PyStr PurePath OS Effect.

(** [Path.mkdir(exist_ok=...)] with [parents=False]:
<<
      try: os.mkdir(self, mode)
      except FileNotFoundError:
          if not parents or self.parent == self: raise
          ...
      except OSError:
          if not exist_ok or not self.is_dir(): raise
>> *)
Definition Path_mkdir (p : Path) (exist_ok : bool) : M unit :=
  fun fs =>
    match OS.mkdir (str p) fs with
    | inr fs' => mkOutcome [EvMkdir (str p)] fs' (inr tt)
    | inl FileNotFoundError =>
        mkOutcome [EvMkdir (str p)] fs (inl FileNotFoundError)
    | inl e =>
        if negb exist_ok then mkOutcome [EvMkdir (str p)] fs (inl e)
        else if negb (isdir (str p) fs)
             then mkOutcome [EvMkdir (str p); EvIsDir (str p)] fs (inl e)
             else mkOutcome [EvMkdir (str p); EvIsDir (str p)] fs (inr tt)
    end.

(** [Path('.').iterdir()]: one listing, each name joined to the path. *)
Definition iterdir (p : Path) : M (list Path) :=
  fun fs =>
    match listdir fs with
    | inr names => mkOutcome [EvListdir] fs (inr (map (truediv p) names))
    | inl e => mkOutcome [EvListdir] fs (inl e)
    end.

(** [subprocess.run(argv)] with the default [check=False]: the child is
    started and waited for; a launch that fails raises, a return code of
    any value is handed back in the completed process. *)
Definition subprocess_run (exec : Exec) (argv : list string) : M Z :=
  fun fs =>
    match exec argv fs with
    | inl e => mkOutcome [EvLaunch argv] fs (inl e)
    | inr (rc, fs') => mkOutcome [EvLaunch argv; EvExit rc] fs' (inr rc)
    end.

End Lib.

(** ** The script *)
Module Compress.
Import PyStr PurePath OS Effect Lib.

Definition input_dir : Path := cur.
Definition output_dir : Path := input_dir // "resized".

Definition extensions : list string :=
  [".jpg"; ".jpeg"; ".png"; ".webp"; ".bmp"].

(** The test of the loop: [img.suffix.lower() in extensions]. *)
Definition selected (img : Path) : bool :=
  in_ (lower (suffix img)) extensions.

(** The argument list handed to [subprocess.run] for [img]. *)
Definition command (img : Path) : list string :=
  let out_path := output_dir // name img in
  ["magick"; str img; "-resize"; "512x512>"; str out_path].

Section Script.
Variable exec : Exec.

Definition body (img : Path) : M unit :=
  if selected img
  then subprocess_run exec (command img) ;;; ret tt
  else ret tt.

Definition main : M unit :=
  Path_mkdir output_dir true ;;;
  imgs <- iterdir input_dir ;;
  for_each imgs body.

End Script.

End Compress.


(** ** What a run shows

    The observations the properties are stated on: what a trace holds, and
    which entries of a listing the loop keeps. *)
Module Obs.
Import PyStr PurePath OS Effect Lib Compress.

(** The names a listing of the working directory yields, in order. *)
Definition listing (fs : FS) : list string := map entry_name (entries fs).

(** The paths of a listing that pass the test of the loop, in order. *)
Definition candidates (names : list string) : list Path :=
  filter selected (map (truediv input_dir) names).

(** The argument lists of the launches of a trace, in order. *)
Fixpoint launches (t : list Event) : list (list string) :=
  match t with
  | [] => []
  | EvLaunch argv :: rest => argv :: launches rest
  | _ :: rest => launches rest
  end.

(** The return codes of the children that were waited for, in order. *)
Fixpoint exits (t : list Event) : list Z :=
  match t with
  | [] => []
  | EvExit rc :: rest => rc :: exits rest
  | _ :: rest => exits rest
  end.


Definition is_process (ev : Event) : bool :=
  match ev with EvLaunch _ | EvExit _ => true | _ => false end.

(** The events of a trace that concern child processes. *)
Definition conversions (t : list Event) : list Event := filter is_process t.

(** One child at a time: every launch is followed by the exit of that
    child before anything else happens, or it is a launch that raised and
    nothing follows it. *)
Fixpoint serial (t : list Event) : bool :=
  match t with
  | [] => true
  | EvLaunch _ :: rest =>
      match rest with
      | [] => true
      | EvExit _ :: rest' => serial rest'
      | _ => false
      end
  | _ => false
  end.


(** The child started by each launch of a trace leaves the file system as
    it found it. *)
Definition inert (exec : Exec) : Prop :=
  forall argv fs rc fs', exec argv fs = inr (rc, fs') -> fs' = fs.

(** Every launch starts a child. *)
Definition launchable (exec : Exec) : Prop :=
  forall argv fs, exists rc fs', exec argv fs = inr (rc, fs').

(** The four ways [output_dir.mkdir(exist_ok=True)] goes. *)
Inductive Prepared (fs : FS) : Outcome unit -> Prop :=
| Made :
    lookup "resized" (entries fs) = None -> writable fs = true ->
    Prepared fs
      (mkOutcome [EvMkdir "resized"]
         (mkFS (entries fs ++ [Dir "resized" []]) (writable fs) (readable fs))
         (inr tt))
| Reused (inside : list Entry) :
    lookup "resized" (entries fs) = Some (Dir "resized" inside) ->
    Prepared fs (mkOutcome [EvMkdir "resized"; EvIsDir "resized"] fs (inr tt))
| Denied :
    lookup "resized" (entries fs) = None -> writable fs = false ->
    Prepared fs
      (mkOutcome [EvMkdir "resized"; EvIsDir "resized"] fs (inl PermissionError))
| Collided :
    lookup "resized" (entries fs) = Some (File "resized") ->
    Prepared fs
      (mkOutcome [EvMkdir "resized"; EvIsDir "resized"] fs (inl FileExistsError)).

(** The ways a run of the script goes: the directory cannot be made, the
    listing is refused, or the loop runs over the listing. *)
Inductive Ran (exec : Exec) (fs : FS) : Outcome unit -> Prop :=
| NoOutputDir (o1 : Outcome unit) (e : Exn) :
    Prepared fs o1 -> result o1 = inl e -> final o1 = fs ->
    Ran exec fs (mkOutcome (trace o1) fs (inl e))
| NoListing (o1 : Outcome unit) :
    Prepared fs o1 -> result o1 = inr tt -> readable fs = false ->
    Ran exec fs (mkOutcome (trace o1 ++ [EvListdir]) (final o1) (inl PermissionError))
| Looped (o1 o3 : Outcome unit) :
    Prepared fs o1 -> result o1 = inr tt -> readable fs = true ->
    o3 = for_each (map (truediv input_dir) (listing (final o1))) (body exec) (final o1) ->
    Ran exec fs (mkOutcome (trace o1 ++ EvListdir :: trace o3) (final o3) (result o3)).

(** The token of an argument list that names the file the tool reads. *)
Definition source_of (argv : list string) : string := nth 1 argv EmptyString.

(** The token of an argument list that names the file the tool writes. *)
Definition dest_of (argv : list string) : string := nth 4 argv EmptyString.

(** Two tools that raise alike and change the file system alike, and may
    differ in the return codes of their children only. *)
Definition same_but_codes (exec1 exec2 : Exec) : Prop :=
  forall argv fs,
    match exec1 argv fs, exec2 argv fs with
    | inl e1, inl e2 => e1 = e2
    | inr (_, fs1), inr (_, fs2) => fs1 = fs2
    | _, _ => False
    end.

(** The file system after the children of the given argument lists have
    run one after another, up to the first launch that raises. *)
Fixpoint replay (exec : Exec) (cmds : list (list string)) (fs : FS) : FS :=
  match cmds with
  | [] => fs
  | argv :: rest =>
      match exec argv fs with
      | inl _ => fs
      | inr (_, fs') => replay exec rest fs'
      end
  end.

(** Whether the launches of the given argument lists, made one after
    another, all start a child. *)
Fixpoint starts (exec : Exec) (cmds : list (list string)) (fs : FS) : bool :=
  match cmds with
  | [] => true
  | argv :: rest =>
      match exec argv fs with
      | inl _ => false
      | inr (_, fs') => starts exec rest fs'
      end
  end.

End Obs.

(** ** Sample directories and tools *)
Module Sample.
Import PyStr PurePath OS Effect Lib Compress.

(** Two images, one of them with an upper-case extension, and two files
    that are not images. *)
Definition photos : FS :=
  mkFS [File "a.jpg"; File "b.PNG"; File "c.txt"; File "notes.md"] true true.

(** A directory with subdirectories: an earlier [resized] with an output
    in it, an album, and a directory named like an image. *)
Definition nested : FS :=
  mkFS [Dir "resized" [File "old.jpg"];
        File "a.jpg";
        Dir "album" [File "inner.png"];
        Dir "scans.bmp" [File "page1"]] true true.

(** A file named [resized] is in the way of the output directory. *)
Definition blocked : FS := mkFS [File "a.jpg"; File "resized"] true true.

(** The working directory cannot be written. *)
Definition read_only : FS := mkFS [File "a.jpg"] false true.

(** A tool that converts every file and changes nothing else here. *)
Definition tool_ok : Exec := fun _ fs => inr (0%Z, fs).

(** No [magick] on the search path: every launch raises. *)
Definition tool_missing : Exec := fun _ _ => inl FileNotFoundError.

(** A tool that starts and fails on every file with exit status 1. *)
Definition tool_failing : Exec := fun _ fs => inr (1%Z, fs).

(** A tool that fails on [a.jpg] and converts the rest. *)
Definition tool_picky : Exec :=
  fun argv fs =>
    if in_ "a.jpg" argv then inr (1%Z, fs) else inr (0%Z, fs).

(** The working directory can be written and cannot be listed. *)
Definition unlistable : FS := mkFS [File "a.jpg"] true false.

(** Nothing here is an image. *)
Definition no_images : FS := mkFS [File "c.txt"; File "notes.md"] true true.

(** Three images. *)
Definition album : FS :=
  mkFS [File "a.jpg"; File "b.PNG"; File "c.webp"] true true.

(** A tool that writes its output: the file named by the destination
    token [resized/<name>] is put into the directory [resized], in place
    of a file of that name if there is one. *)
Definition tool_writing : Exec :=
  fun argv fs =>
    let out := slice_from 8 (Obs.dest_of argv) in
    let put (e : Entry) : Entry :=
      match e with
      | Dir nm inside =>
          if String.eqb nm "resized"
          then Dir nm (filter (fun f => negb (String.eqb (entry_name f) out)) inside
                       ++ [File out])%list
          else e
      | File _ => e
      end in
    inr (0%Z, mkFS (map put (entries fs)) (writable fs) (readable fs)).

(** A tool that fails on [a.jpg] with exit status 1, cannot be started on
    [b.PNG], and converts the rest. *)
Definition tool_mixed : Exec :=
  fun argv fs =>
    if in_ "a.jpg" argv then inr (1%Z, fs)
    else if in_ "b.PNG" argv then inl PermissionError
    else inr (0%Z, fs).

(** A tool that cannot be started on [b.PNG] and converts the rest. *)
Definition tool_choking : Exec :=
  fun argv fs =>
    if in_ "b.PNG" argv then inl PermissionError else inr (0%Z, fs).

End Sample.

Import PyStr PurePath OS Effect Lib Compress Obs Sample.

(** * Properties *)

(** ** Strings and suffixes *)
Section Suffix.

Lemma length_app (p s : string) :
  String.length (p ++ s) = String.length p + String.length s.
Proof. induction p as [|a p IH]; simpl; [reflexivity | now rewrite IH]. Qed.

Lemma rfind_range (c : ascii) (s : string) :
  (-1 <= rfind c s < len s)%Z.
Proof.
  unfold len. induction s as [|a t IH]; simpl String.length; simpl rfind.
  - lia.
  - destruct (Z.ltb_spec (rfind c t) 0); [destruct (Ascii.eqb a c) |]; lia.
Qed.

Lemma rfind_free (c : ascii) (s : string) :
  free_of c s = true -> rfind c s = (-1)%Z.
Proof.
  induction s as [|a t IH]; simpl; [reflexivity |].
  intros H. apply andb_prop in H as [Ha Ht]. rewrite (IH Ht). simpl.
  apply negb_true_iff in Ha. now rewrite Ha.
Qed.

(** The last occurrence: in [p ++ c :: e] with no [c] in [e] it is at
    [len p]. *)
Lemma rfind_last (c : ascii) (p e : string) :
  free_of c e = true ->
  rfind c (p ++ String c e) = Z.of_nat (String.length p).
Proof.
  intros He. induction p as [|a p IH].
  - simpl. rewrite (rfind_free c e He). simpl. now rewrite Ascii.eqb_refl.
  - change ((String a p) ++ String c e) with (String a (p ++ String c e)).
    simpl rfind. rewrite IH.
    destruct (Z.ltb_spec (Z.of_nat (String.length p)) 0); [lia |].
    simpl String.length. lia.
Qed.

Lemma slice_from_app (p s : string) :
  slice_from (String.length p) (p ++ s) = s.
Proof. induction p as [|a p IH]; simpl; [now destruct s | exact IH]. Qed.

(** A name [p.e] with a stem [p] that is not empty and an [e] that is not
    empty and holds no dot has the suffix [.e], whatever [p] holds. *)
Lemma suffix_of_name_last (p e : string) :
  p <> EmptyString -> e <> EmptyString -> free_of "." e = true ->
  suffix_of_name (p ++ String "." e) = String "." e.
Proof.
  intros Hp He Hfree. unfold suffix_of_name, len.
  rewrite (rfind_last "." p e Hfree), length_app. simpl String.length.
  assert (0 < String.length p) by (destruct p; [congruence | simpl; lia]).
  assert (0 < String.length e) by (destruct e; [congruence | simpl; lia]).
  destruct (Z.ltb_spec 0 (Z.of_nat (String.length p))); [| lia].
  destruct (Z.ltb_spec (Z.of_nat (String.length p))
              (Z.of_nat (String.length p + S (String.length e)) - 1)); [| lia].
  simpl andb. rewrite Nat2Z.id. apply slice_from_app.
Qed.

(** A name whose only dot is its first character has no suffix. *)
Lemma suffix_of_name_hidden (e : string) :
  free_of "." e = true -> suffix_of_name (String "." e) = EmptyString.
Proof.
  intros Hfree. unfold suffix_of_name.
  change (String "." e) with (EmptyString ++ String "." e) at 1.
  rewrite (rfind_last "." EmptyString e Hfree). reflexivity.
Qed.

(** A name with no dot has no suffix. *)
Lemma suffix_of_name_plain (s : string) :
  free_of "." s = true -> suffix_of_name s = EmptyString.
Proof.
  intros Hfree. unfold suffix_of_name. now rewrite (rfind_free "." s Hfree).
Qed.

(** A name that ends in a dot has no suffix. *)
Lemma suffix_of_name_trailing (p : string) :
  suffix_of_name (p ++ ".") = EmptyString.
Proof.
  unfold suffix_of_name, len.
  rewrite (rfind_last "." p EmptyString eq_refl), length_app. simpl String.length.
  destruct (Z.ltb_spec (Z.of_nat (String.length p))
              (Z.of_nat (String.length p + 1) - 1)); [lia |].
  now rewrite andb_false_r.
Qed.

End Suffix.

(** ** Paths of the script *)
Section Paths.

Lemma name_child (p : Path) (nm : string) : name (p // nm) = nm.
Proof. unfold name, truediv. apply last_last. Qed.

Lemma str_entry (nm : string) : str (input_dir // nm) = nm.
Proof. reflexivity. Qed.

Lemma str_out_path (nm : string) :
  str (output_dir // nm) = "resized/" ++ nm.
Proof. reflexivity. Qed.

Lemma command_entry (nm : string) :
  command (input_dir // nm) =
  ["magick"; nm; "-resize"; "512x512>"; "resized/" ++ nm].
Proof. unfold command. now rewrite name_child. Qed.

Lemma selected_entry (nm : string) :
  selected (input_dir // nm) = in_ (lower (suffix_of_name nm)) extensions.
Proof. unfold selected, suffix. now rewrite name_child. Qed.

Lemma in_extensions (s : string) :
  in_ s extensions = true <->
  s = ".jpg" \/ s = ".jpeg" \/ s = ".png" \/ s = ".webp" \/ s = ".bmp".
Proof.
  unfold in_, extensions. simpl existsb.
  rewrite !orb_true_iff, !String.eqb_eq. intuition congruence.
Qed.

End Paths.

(** ** The loop *)
Section Loop.
Variable exec : Exec.

Lemma outcome_eta {A : Type} (o : Outcome A) :
  mkOutcome (trace o) (final o) (result o) = o.
Proof. now destruct o. Qed.

(** The three ways one turn of the loop goes. *)
Lemma body_skip (img : Path) (fs : FS) :
  selected img = false -> body exec img fs = mkOutcome [] fs (inr tt).
Proof. intros Hsel. unfold body. now rewrite Hsel. Qed.

Lemma body_raise (img : Path) (fs : FS) (e : Exn) :
  selected img = true -> exec (command img) fs = inl e ->
  body exec img fs = mkOutcome [EvLaunch (command img)] fs (inl e).
Proof.
  intros Hsel Hex. unfold body. rewrite Hsel.
  unfold bind, subprocess_run. now rewrite Hex.
Qed.

Lemma body_run (img : Path) (fs fs' : FS) (rc : Z) :
  selected img = true -> exec (command img) fs = inr (rc, fs') ->
  body exec img fs =
  mkOutcome [EvLaunch (command img); EvExit rc] fs' (inr tt).
Proof.
  intros Hsel Hex. unfold body. rewrite Hsel.
  unfold bind, subprocess_run. now rewrite Hex.
Qed.

Lemma for_each_cons {A : Type} (x : A) (rest : list A) (b : A -> M unit) (fs : FS) :
  for_each (x :: rest) b fs =
  match result (b x fs) with
  | inl e => mkOutcome (trace (b x fs)) (final (b x fs)) (inl e)
  | inr _ =>
      let o := for_each rest b (final (b x fs)) in
      mkOutcome (trace (b x fs) ++ trace o)%list (final o) (result o)
  end.
Proof. reflexivity. Qed.

Lemma loop_skip (img : Path) (rest : list Path) (fs : FS) :
  selected img = false ->
  for_each (img :: rest) (body exec) fs = for_each rest (body exec) fs.
Proof.
  intros Hsel. rewrite for_each_cons, (body_skip img fs Hsel).
  cbn [result trace final app]. apply outcome_eta.
Qed.

Lemma loop_raise (img : Path) (rest : list Path) (fs : FS) (e : Exn) :
  selected img = true -> exec (command img) fs = inl e ->
  for_each (img :: rest) (body exec) fs =
  mkOutcome [EvLaunch (command img)] fs (inl e).
Proof.
  intros Hsel Hex. now rewrite for_each_cons, (body_raise img fs e Hsel Hex).
Qed.

Lemma loop_run (img : Path) (rest : list Path) (fs fs' : FS) (rc : Z) :
  selected img = true -> exec (command img) fs = inr (rc, fs') ->
  for_each (img :: rest) (body exec) fs =
  let o := for_each rest (body exec) fs' in
  mkOutcome (EvLaunch (command img) :: EvExit rc :: trace o) (final o) (result o).
Proof.
  intros Hsel Hex. now rewrite for_each_cons, (body_run img fs fs' rc Hsel Hex).
Qed.

(** Case analysis on the first turn of the loop. *)
Ltac first_turn img rest fs :=
  let Hsel := fresh "Hsel" in
  let Hex := fresh "Hex" in
  destruct (selected img) eqn:Hsel;
  [ destruct (exec (command img) fs) as [? | [? ?]] eqn:Hex;
    [ rewrite (loop_raise img rest fs _ Hsel Hex)
    | rewrite (loop_run img rest fs _ _ Hsel Hex) ]
  | rewrite (loop_skip img rest fs Hsel) ].

(** The loop makes no call but launches and waits. *)
Lemma loop_only_processes (imgs : list Path) (fs : FS) :
  Forall (fun ev => is_process ev = true) (trace (for_each imgs (body exec) fs)).
Proof.
  revert fs. induction imgs as [|img rest IH]; intros fs.
  - constructor.
  - first_turn img rest fs; simpl; auto.
Qed.

Lemma loop_serial (imgs : list Path) (fs : FS) :
  serial (trace (for_each imgs (body exec) fs)) = true.
Proof.
  revert fs. induction imgs as [|img rest IH]; intros fs.
  - reflexivity.
  - first_turn img rest fs; simpl; auto.
Qed.

(** The launches are those of the kept paths, in order, up to the first
    launch that raises. *)
Lemma loop_launches_prefix (imgs : list Path) (fs : FS) :
  exists k, launches (trace (for_each imgs (body exec) fs)) =
            firstn k (map command (filter selected imgs)).
Proof.
  revert fs. induction imgs as [|img rest IH]; intros fs.
  - exists 0. reflexivity.
  - simpl filter. first_turn img rest fs.
    + exists 1. reflexivity.
    + destruct (IH f) as [k Hk]. exists (S k). simpl. now rewrite Hk.
    + apply IH.
Qed.

(** A loop that ends without an exception launched every kept path and
    waited for every child. *)
Lemma loop_complete (imgs : list Path) (fs : FS) :
  result (for_each imgs (body exec) fs) = inr tt ->
  launches (trace (for_each imgs (body exec) fs)) =
    map command (filter selected imgs) /\
  length (exits (trace (for_each imgs (body exec) fs))) =
    length (filter selected imgs).
Proof.
  revert fs. induction imgs as [|img rest IH]; intros fs.
  - intros _. split; reflexivity.
  - simpl filter. first_turn img rest fs; simpl.
    + discriminate.
    + intros H. destruct (IH f H) as [Hl He]. now rewrite Hl, He.
    + apply IH.
Qed.

(** The loop raises only what a launch raised. *)
Lemma loop_raises_from_launch (imgs : list Path) (fs : FS) (e : Exn) :
  result (for_each imgs (body exec) fs) = inl e ->
  exists img fs0, In img (filter selected imgs) /\ exec (command img) fs0 = inl e.
Proof.
  revert fs. induction imgs as [|img rest IH]; intros fs.
  - discriminate.
  - simpl filter. first_turn img rest fs; simpl.
    + intros H. injection H as <-. exists img, fs. split; [now left | assumption].
    + intros H. destruct (IH f H) as (i & w & Hi & Hw). exists i, w. split; [now right | assumption].
    + apply IH.
Qed.

(** When every launch starts a child, the loop ends without an exception,
    whatever the children return. *)
Lemma loop_launchable (imgs : list Path) (fs : FS) :
  launchable exec -> result (for_each imgs (body exec) fs) = inr tt.
Proof.
  intros Hl. destruct (result (for_each imgs (body exec) fs)) as [e | []] eqn:Hr.
  - destruct (loop_raises_from_launch imgs fs e Hr) as (img & w & _ & Hw).
    destruct (Hl (command img) w) as (rc & w' & Hok). congruence.
  - reflexivity.
Qed.

(** With a tool that changes nothing, the loop changes nothing. *)
Lemma loop_inert (imgs : list Path) (fs : FS) :
  inert exec -> final (for_each imgs (body exec) fs) = fs.
Proof.
  intros Hin. revert fs. induction imgs as [|img rest IH]; intros fs.
  - reflexivity.
  - first_turn img rest fs; simpl.
    + reflexivity.
    + rewrite (Hin _ _ _ _ Hex), IH. reflexivity.
    + apply IH.
Qed.

End Loop.

(** ** Creating the output directory *)
Section Prepare.

Lemma lookup_app_none (nm : string) (es es' : list Entry) :
  lookup nm es = None -> lookup nm (es ++ es') = lookup nm es'.
Proof.
  unfold lookup. induction es as [|e es IH]; simpl; [reflexivity |].
  destruct (String.eqb (entry_name e) nm); [discriminate | exact IH].
Qed.

Lemma lookup_name (nm : string) (es : list Entry) (e : Entry) :
  lookup nm es = Some e -> entry_name e = nm.
Proof.
  unfold lookup. intros H. apply find_some in H as [_ H].
  now apply String.eqb_eq.
Qed.

Lemma prepared (fs : FS) : Prepared fs (Path_mkdir output_dir true fs).
Proof.
  unfold Path_mkdir, OS.mkdir, isdir.
  change (str output_dir) with "resized".
  destruct fs as [es w r].
  destruct (lookup "resized" (entries (mkFS es w r))) as [[nm | nm inside] |] eqn:Hl.
  - pose proof (lookup_name _ _ _ Hl) as Hn. simpl in Hn. subst nm.
    simpl. now apply Collided.
  - pose proof (lookup_name _ _ _ Hl) as Hn. simpl in Hn. subst nm.
    simpl. now apply Reused with inside.
  - destruct w.
    + now apply Made.
    + now apply Denied.
Qed.

Lemma not_selected_resized : selected (input_dir // "resized") = false.
Proof. reflexivity. Qed.

Lemma candidates_app (l1 l2 : list string) :
  candidates (l1 ++ l2) = (candidates l1 ++ candidates l2)%list.
Proof. unfold candidates. now rewrite map_app, filter_app. Qed.

(** The directory the script has just made is listed and not kept. *)
Lemma candidates_prepared (fs : FS) (o : Outcome unit) :
  Prepared fs o -> candidates (listing (final o)) = candidates (listing fs).
Proof.
  intros [Hl Hw | inside Hl | Hl Hw | Hl]; try reflexivity.
  unfold listing. simpl entries. rewrite map_app, candidates_app. simpl.
  apply app_nil_r.
Qed.

Lemma readable_prepared (fs : FS) (o : Outcome unit) :
  Prepared fs o -> readable (final o) = readable fs.
Proof. now intros [Hl Hw | inside Hl | Hl Hw | Hl]. Qed.

Lemma isdir_prepared (fs : FS) (o : Outcome unit) :
  Prepared fs o -> result o = inr tt -> isdir "resized" (final o) = true.
Proof.
  intros [Hl Hw | inside Hl | Hl Hw | Hl]; simpl; try discriminate; intros _.
  - unfold isdir. simpl entries. now rewrite (lookup_app_none _ _ _ Hl).
  - unfold isdir. now rewrite Hl.
Qed.

End Prepare.

(** ** The script as a whole *)
Section Main.
Variable exec : Exec.

Lemma main_unfold (fs : FS) :
  main exec fs =
  let o1 := Path_mkdir output_dir true fs in
  match result o1 with
  | inl e => mkOutcome (trace o1) (final o1) (inl e)
  | inr _ =>
      match listdir (final o1) with
      | inl e => mkOutcome (trace o1 ++ [EvListdir]) (final o1) (inl e)
      | inr names =>
          let o3 := for_each (map (truediv input_dir) names) (body exec) (final o1) in
          mkOutcome (trace o1 ++ EvListdir :: trace o3) (final o3) (result o3)
      end
  end.
Proof.
  unfold main. unfold bind at 1. cbv zeta.
  destruct (result (Path_mkdir output_dir true fs)) as [e | u]; [reflexivity |].
  unfold bind, iterdir.
  destruct (listdir (final (Path_mkdir output_dir true fs))) as [e | names];
    reflexivity.
Qed.

Lemma ran (fs : FS) : Ran exec fs (main exec fs).
Proof.
  rewrite main_unfold. cbv zeta.
  pose proof (prepared fs) as Hp.
  pose proof (readable_prepared _ _ Hp) as Hr.
  destruct (result (Path_mkdir output_dir true fs)) as [e | []] eqn:Hres.
  - assert (Hf : final (Path_mkdir output_dir true fs) = fs).
    { destruct Hp; simpl in *; congruence. }
    rewrite Hf. now apply NoOutputDir.
  - unfold listdir. rewrite Hr. destruct (readable fs) eqn:Hrd.
    + now apply Looped.
    + now apply NoListing.
Qed.

End Main.

(** ** Which entries are converted *)
Section Selection.

Lemma selected_iff (nm : string) :
  selected (input_dir // nm) = true <->
  (let s := lower (suffix_of_name nm) in
   s = ".jpg" \/ s = ".jpeg" \/ s = ".png" \/ s = ".webp" \/ s = ".bmp").
Proof. rewrite selected_entry. apply in_extensions. Qed.

Lemma candidates_In (names : list string) (nm : string) :
  In (input_dir // nm) (candidates names) <->
  In nm names /\ selected (input_dir // nm) = true.
Proof.
  unfold candidates. rewrite filter_In, in_map_iff. split.
  - intros [(x & Hx & Hin) Hsel]. split; [| exact Hsel].
    assert (x = nm) by (unfold truediv, input_dir, cur in Hx; simpl in Hx; congruence).
    now subst.
  - intros [Hin Hsel]. split; [| exact Hsel]. now exists nm.
Qed.

Lemma candidates_entries (names : list string) (img : Path) :
  In img (candidates names) ->
  exists nm, img = input_dir // nm /\ In nm names /\ selected (input_dir // nm) = true.
Proof.
  unfold candidates. rewrite filter_In, in_map_iff.
  intros [(nm & <- & Hin) Hsel]. now exists nm.
Qed.

Lemma In_firstn {A : Type} (k : nat) (l : list A) (x : A) :
  In x (firstn k l) -> In x l.
Proof.
  revert l. induction k as [|k IH]; intros [|a l]; simpl; try tauto.
  intros [H | H]; [now left | right; now apply IH].
Qed.

End Selection.

(** ** Runs of the script *)
Section Runs.
Variable exec : Exec.

(** The launches of a run are those of the candidates of the directory
    as it was found, in listing order, up to the first launch that raises. *)
Lemma run_launches_prefix (fs : FS) :
  exists k, launches (trace (main exec fs)) =
            firstn k (map command (candidates (listing fs))).
Proof.
  destruct (ran exec fs) as [o1 e Hp Hres Hf | o1 Hp Hres Hrd | o1 o3 Hp Hres Hrd ->];
    cbn [trace].
  - exists 0. destruct Hp; reflexivity.
  - exists 0. destruct Hp; reflexivity.
  - rewrite <- (candidates_prepared fs o1 Hp).
    destruct (loop_launches_prefix exec
                (map (truediv input_dir) (listing (final o1))) (final o1)) as [k Hk].
    exists k. unfold candidates. rewrite <- Hk. destruct Hp; reflexivity.
Qed.

(** A run that ends without an exception launched every candidate. *)
Lemma run_complete (fs : FS) :
  result (main exec fs) = inr tt ->
  launches (trace (main exec fs)) = map command (candidates (listing fs)) /\
  length (exits (trace (main exec fs))) = length (candidates (listing fs)).
Proof.
  destruct (ran exec fs) as [o1 e Hp Hres Hf | o1 Hp Hres Hrd | o1 o3 Hp Hres Hrd ->];
    cbn [trace result]; try discriminate.
  intros Hok. rewrite <- (candidates_prepared fs o1 Hp).
  destruct (loop_complete exec _ _ Hok) as [Hl He].
  unfold candidates. rewrite <- Hl, <- He. destruct Hp; split; reflexivity.
Qed.

(** Every launch of a run is the command of a candidate. *)
Lemma run_launches_candidates (fs : FS) (argv : list string) :
  In argv (launches (trace (main exec fs))) ->
  exists nm, In nm (listing fs) /\ selected (input_dir // nm) = true /\
             argv = command (input_dir // nm).
Proof.
  destruct (run_launches_prefix fs) as [k ->]. intros Hin.
  apply In_firstn in Hin. apply in_map_iff in Hin as (img & <- & Himg).
  apply candidates_entries in Himg as (nm & -> & Hin & Hsel). now exists nm.
Qed.

End Runs.

(** C2. An entry of the working directory is kept by the test of the loop
    exactly when its lowercased suffix is [.jpg], [.jpeg], [.png], [.webp]
    or [.bmp]; the candidates of a listing are the entries that pass; and
    in a directory holding [a.jpg], [b.PNG], [c.txt] and [notes.md] the
    script converts [a.jpg] and [b.PNG] and nothing else. *)
Theorem candidate_iff_image_suffix :
  (forall nm : string,
     selected (input_dir // nm) = true <->
     (let s := lower (suffix_of_name nm) in
      s = ".jpg" \/ s = ".jpeg" \/ s = ".png" \/ s = ".webp" \/ s = ".bmp")) /\
  (forall (fs : FS) (nm : string),
     In (input_dir // nm) (candidates (listing fs)) <->
     In nm (listing fs) /\
     (let s := lower (suffix_of_name nm) in
      s = ".jpg" \/ s = ".jpeg" \/ s = ".png" \/ s = ".webp" \/ s = ".bmp")) /\
  candidates (listing photos) = [input_dir // "a.jpg"; input_dir // "b.PNG"] /\
  launches (trace (main tool_ok photos)) =
    [command (input_dir // "a.jpg"); command (input_dir // "b.PNG")].
Proof.
  split; [exact selected_iff |]. split; [| split; reflexivity].
  intros fs nm. rewrite candidates_In, selected_iff. reflexivity.
Qed.

(** C9. Only the part of a name after its last dot decides: a name [p.e]
    with a stem [p] that is not empty and an [e] without a dot is kept
    exactly when [.e], lowercased, is an image extension, whatever dots and
    extensions [p] holds; a name whose only dot is its first character has
    no suffix and is not kept.  So [.jpg] and [photo.jpg.txt] are not kept
    and [archive.tar.png] is. *)
Theorem selection_reads_final_suffix :
  (forall p e : string,
     p <> EmptyString -> e <> EmptyString -> free_of "." e = true ->
     suffix (input_dir // (p ++ "." ++ e)) = "." ++ e /\
     selected (input_dir // (p ++ "." ++ e)) = in_ (lower ("." ++ e)) extensions) /\
  (forall e : string,
     free_of "." e = true ->
     suffix (input_dir // ("." ++ e)) = EmptyString /\
     selected (input_dir // ("." ++ e)) = false) /\
  (suffix (input_dir // ".jpg") = EmptyString /\
   selected (input_dir // ".jpg") = false) /\
  (suffix (input_dir // "photo.jpg.txt") = ".txt" /\
   selected (input_dir // "photo.jpg.txt") = false) /\
  (suffix (input_dir // "archive.tar.png") = ".png" /\
   selected (input_dir // "archive.tar.png") = true).
Proof.
  split; [| split; [| repeat split; reflexivity]].
  - intros p e Hp He Hfree. change ("." ++ e) with (String "." e).
    assert (Hs : suffix (input_dir // (p ++ String "." e)) = String "." e).
    { unfold suffix. rewrite name_child. now apply suffix_of_name_last. }
    split; [exact Hs |]. unfold selected. now rewrite Hs.
  - intros e Hfree. change ("." ++ e) with (String "." e).
    assert (Hs : suffix (input_dir // String "." e) = EmptyString).
    { unfold suffix. rewrite name_child. now apply suffix_of_name_hidden. }
    split; [exact Hs |]. unfold selected. now rewrite Hs.
Qed.

(** The stem [archive.tar] and the part [png] give a kept name. *)
Lemma selection_reads_final_suffix_witness :
  selected (input_dir // "archive.tar.png") = true.
Proof.
  destruct (proj1 selection_reads_final_suffix "archive.tar" "png") as [_ H].
  - discriminate.
  - discriminate.
  - reflexivity.
  - exact H.
Defined.

(** ** Order of the calls *)
Section Order.


Lemma launches_app (t1 t2 : list Event) :
  launches (t1 ++ t2) = (launches t1 ++ launches t2)%list.
Proof.
  induction t1 as [|ev t1 IH]; [reflexivity |].
  destruct ev; simpl; now rewrite IH.
Qed.

Lemma conversions_processes (t : list Event) :
  Forall (fun ev => is_process ev = true) t -> conversions t = t.
Proof.
  unfold conversions. induction 1 as [|ev t Hev _ IH]; [reflexivity |].
  simpl. now rewrite Hev, IH.
Qed.

End Order.



(** ** The output directory *)
Section OutputDir.

Lemma mkdir_existing (fs : FS) :
  isdir "resized" fs = true ->
  Path_mkdir output_dir true fs =
  mkOutcome [EvMkdir "resized"; EvIsDir "resized"] fs (inr tt).
Proof.
  intros Hdir. pose proof (prepared fs) as Hp.
  remember (Path_mkdir output_dir true fs) as o eqn:Ho. clear Ho.
  unfold isdir in Hdir.
  destruct Hp as [Hl Hw | inside Hl | Hl Hw | Hl]; rewrite Hl in Hdir;
    try discriminate; reflexivity.
Qed.


End OutputDir.



(** ** Launches that raise *)
Section Unavailable.
Variable exec : Exec.

(** When no launch can start a child, the loop ends at its first kept
    path with the exception of that launch. *)
Lemma loop_unavailable (e : Exn) (imgs : list Path) (fs : FS) (c : Path) (cs : list Path) :
  (forall argv w, exec argv w = inl e) ->
  filter selected imgs = c :: cs ->
  for_each imgs (body exec) fs = mkOutcome [EvLaunch (command c)] fs (inl e).
Proof.
  intros Hun. induction imgs as [|img rest IH]; simpl filter; [discriminate |].
  destruct (selected img) eqn:Hsel.
  - intros Heq. injection Heq as -> _.
    now rewrite (loop_raise exec _ rest fs e Hsel (Hun _ _)).
  - intros Heq. rewrite (loop_skip exec img rest fs Hsel). now apply IH.
Qed.

End Unavailable.

(** C1, as stated, fails: with no [magick] to launch, the launch for
    [a.jpg] raises [FileNotFoundError], the script ends with it, and the
    candidate [b.PNG] is never attempted. *)
Lemma missing_tool_ends_run :
  In (input_dir // "b.PNG") (candidates (listing photos)) /\
  result (main tool_missing photos) = inl FileNotFoundError /\
  launches (trace (main tool_missing photos)) = [command (input_dir // "a.jpg")] /\
  ~ In (command (input_dir // "b.PNG")) (launches (trace (main tool_missing photos))).
Proof.
  repeat split.
  - right. now left.
  - intros [H | []]. discriminate.
Qed.

(** ** One child at a time *)
Section Serial.
Variable exec : Exec.

Lemma conversions_app (t1 t2 : list Event) :
  conversions (t1 ++ t2) = (conversions t1 ++ conversions t2)%list.
Proof. apply filter_app. Qed.

Lemma conversions_prepared (fs : FS) (o : Outcome unit) :
  Prepared fs o -> conversions (trace o) = [].
Proof. now intros [Hl Hw | inside Hl | Hl Hw | Hl]. Qed.

Lemma run_serial (fs : FS) : serial (conversions (trace (main exec fs))) = true.
Proof.
  destruct (ran exec fs) as [o1 e Hp Hres Hf | o1 Hp Hres Hrd | o1 o3 Hp Hres Hrd ->];
    cbn [trace].
  - now rewrite (conversions_prepared _ _ Hp).
  - now rewrite conversions_app, (conversions_prepared _ _ Hp).
  - rewrite conversions_app, (conversions_prepared _ _ Hp). simpl.
    rewrite (conversions_processes _ (loop_only_processes exec _ _)).
    apply loop_serial.
Qed.

End Serial.

(** C6, as the script has it.  In every run each launch is followed by
    the exit of its child before the next call, and the launches are the
    commands of the candidates in listing order, cut short only where an
    exception ended the run; a run that ends without an exception launched
    and waited for exactly one child per candidate. *)
Theorem one_child_per_candidate_in_order (exec : Exec) (fs : FS) :
  let t := trace (main exec fs) in
  serial (conversions t) = true /\
  (exists k, launches t = firstn k (map command (candidates (listing fs)))) /\
  (result (main exec fs) = inr tt ->
     launches t = map command (candidates (listing fs)) /\
     length (exits t) = length (candidates (listing fs))).
Proof.
  cbv zeta. split; [apply run_serial |].
  split; [apply run_launches_prefix | apply run_complete].
Qed.

(** A complete run over the sample directory. *)
Lemma one_child_per_candidate_in_order_witness :
  launches (trace (main tool_failing photos)) =
    [command (input_dir // "a.jpg"); command (input_dir // "b.PNG")] /\
  length (exits (trace (main tool_failing photos))) = 2.
Proof.
  apply (proj2 (proj2 (one_child_per_candidate_in_order tool_failing photos))).
  reflexivity.
Defined.

(** C6, as stated, fails: with no [magick] to launch, the directory has
    two candidates and the run starts no child at all; one launch is
    attempted, for the first candidate, and none for the second. *)
Lemma missing_tool_starts_no_child :
  length (candidates (listing photos)) = 2 /\
  exits (trace (main tool_missing photos)) = [] /\
  length (launches (trace (main tool_missing photos))) = 1 /\
  launches (trace (main tool_missing photos)) <>
    map command (candidates (listing photos)).
Proof. repeat split. discriminate. Qed.

(** ** Entries of the working directory only *)
Section Flat.
Variable exec : Exec.

Lemma command_source (nm nm' : string) :
  command (input_dir // nm) = command (input_dir // nm') -> nm = nm'.
Proof. rewrite !command_entry. congruence. Qed.

Lemma listing_In (fs : FS) (e : Entry) :
  In e (entries fs) -> In (entry_name e) (listing fs).
Proof. apply in_map. Qed.

End Flat.

(** C7. Every launch of a run is for a name the listing of the working
    directory yields, so a name found only inside a subdirectory is never
    converted; [resized] does not pass the test of the loop and is never
    converted; and the test does not look at what an entry is: a directory
    whose name passes is converted in every run that ends without an
    exception. *)
Theorem scan_is_flat (exec : Exec) (fs : FS) :
  Forall (fun argv =>
            exists nm, In nm (listing fs) /\ selected (input_dir // nm) = true /\
                       argv = command (input_dir // nm))
         (launches (trace (main exec fs))) /\
  (forall nm : string,
     ~ In nm (listing fs) ->
     ~ In (command (input_dir // nm)) (launches (trace (main exec fs)))) /\
  (selected (input_dir // "resized") = false /\
   suffix (input_dir // "resized") = EmptyString /\
   ~ In (command (input_dir // "resized")) (launches (trace (main exec fs)))) /\
  (forall (nm : string) (inside : list Entry),
     In (Dir nm inside) (entries fs) ->
     (In (input_dir // nm) (candidates (listing fs)) <->
      selected (input_dir // nm) = true) /\
     (selected (input_dir // nm) = true ->
      result (main exec fs) = inr tt ->
      In (command (input_dir // nm)) (launches (trace (main exec fs))))).
Proof.
  split; [| split; [| split]].
  - apply Forall_forall. intros argv Hin.
    exact (run_launches_candidates exec fs argv Hin).
  - intros nm Hnot Hin.
    destruct (run_launches_candidates exec fs _ Hin) as (nm' & Hnm' & _ & Heq).
    apply command_source in Heq. now subst.
  - repeat split. intros Hin.
    destruct (run_launches_candidates exec fs _ Hin) as (nm' & _ & Hsel & Heq).
    apply command_source in Heq. subst nm'. discriminate.
  - intros nm inside Hin.
    pose proof (listing_In fs (Dir nm inside) Hin) as Hnm. simpl in Hnm.
    split.
    + rewrite candidates_In. tauto.
    + intros Hsel Hok.
      destruct (run_complete exec fs Hok) as [-> _]. apply in_map.
      apply candidates_In. now split.
Qed.

(** In the sample with subdirectories the directory [scans.bmp] is
    converted, and nothing inside [album] or [resized] is. *)
Lemma scan_is_flat_witness :
  In (command (input_dir // "scans.bmp")) (launches (trace (main tool_ok nested))) /\
  ~ In (command (input_dir // "inner.png")) (launches (trace (main tool_ok nested))) /\
  ~ In (command (input_dir // "old.jpg")) (launches (trace (main tool_ok nested))).
Proof.
  destruct (scan_is_flat tool_ok nested) as (_ & Hout & _ & Hdir).
  split; [| split].
  - apply (proj2 (Hdir "scans.bmp" [File "page1"]
                    (or_intror (or_intror (or_intror (or_introl eq_refl)))))).
    + reflexivity.
    + reflexivity.
  - apply Hout. simpl. intros [H | [H | [H | [H | []]]]]; discriminate.
  - apply Hout. simpl. intros [H | [H | [H | [H | []]]]]; discriminate.
Defined.

(** ** What the script itself changes *)
Section Frame.
Variable exec : Exec.

Lemma run_inert (fs : FS) :
  inert exec -> final (main exec fs) = final (Path_mkdir output_dir true fs).
Proof.
  intros Hin. rewrite main_unfold. cbv zeta.
  destruct (result (Path_mkdir output_dir true fs)) as [e | u]; [reflexivity |].
  destruct (listdir (final (Path_mkdir output_dir true fs))) as [e | names];
    [reflexivity |].
  cbn [final]. now apply loop_inert.
Qed.


End Frame.




(** * Further properties of the script *)

(** ** The loop, turn by turn *)
Section LoopMore.
Variable exec : Exec.

(** A loop with nothing to keep makes no call. *)
Lemma loop_nothing_kept (imgs : list Path) (fs : FS) :
  filter selected imgs = [] ->
  for_each imgs (body exec) fs = mkOutcome [] fs (inr tt).
Proof.
  induction imgs as [|img rest IH]; [reflexivity |].
  simpl filter. destruct (selected img) eqn:Hsel; [discriminate |].
  intros Hnone. rewrite (loop_skip exec img rest fs Hsel). now apply IH.
Qed.

(** The file system a loop leaves is the one its children leave. *)
Lemma loop_final_replay (imgs : list Path) (fs : FS) :
  final (for_each imgs (body exec) fs) =
  replay exec (map command (filter selected imgs)) fs.
Proof.
  revert fs. induction imgs as [|img rest IH]; intros fs; [reflexivity |].
  simpl filter. destruct (selected img) eqn:Hsel.
  - cbn [map replay].
    destruct (exec (command img) fs) as [e | [rc fs']] eqn:Hex.
    + now rewrite (loop_raise exec img rest fs e Hsel Hex).
    + rewrite (loop_run exec img rest fs fs' rc Hsel Hex). cbn [final]. apply IH.
  - rewrite (loop_skip exec img rest fs Hsel). apply IH.
Qed.

(** A loop that an exception ended stopped at one kept path: the paths
    before it were launched and waited for, the launch for it raised, and
    nothing after it was launched. *)
Lemma loop_stops_at_raise (imgs : list Path) (fs : FS) (e : Exn) :
  result (for_each imgs (body exec) fs) = inl e ->
  exists (done : list Path) (c : Path) (rest : list Path),
    filter selected imgs = (done ++ c :: rest)%list /\
    launches (trace (for_each imgs (body exec) fs)) = map command (done ++ [c]) /\
    length (exits (trace (for_each imgs (body exec) fs))) = length done.
Proof.
  revert fs. induction imgs as [|img others IH]; intros fs; [discriminate |].
  simpl filter. destruct (selected img) eqn:Hsel.
  - destruct (exec (command img) fs) as [e' | [rc fs']] eqn:Hex.
    + rewrite (loop_raise exec img others fs e' Hsel Hex). intros _.
      exists [], img, (filter selected others). repeat split.
    + rewrite (loop_run exec img others fs fs' rc Hsel Hex). cbv zeta.
      cbn [result trace]. intros Hres.
      destruct (IH fs' Hres) as (done & c & rest & Hf & Hl & Hx).
      exists (img :: done), c, rest. rewrite Hf.
      cbn [launches exits length]. rewrite Hl, Hx. repeat split.
  - rewrite (loop_skip exec img others fs Hsel). apply IH.
Qed.

End LoopMore.

(** Return codes are not read: loops over tools that differ in them only
    make the same launches and end alike. *)
Lemma loop_codes_unread (exec1 exec2 : Exec) (imgs : list Path) (fs : FS) :
  same_but_codes exec1 exec2 ->
  launches (trace (for_each imgs (body exec1) fs)) =
    launches (trace (for_each imgs (body exec2) fs)) /\
  result (for_each imgs (body exec1) fs) = result (for_each imgs (body exec2) fs) /\
  final (for_each imgs (body exec1) fs) = final (for_each imgs (body exec2) fs).
Proof.
  intros Hsame. revert fs. induction imgs as [|img rest IH]; intros fs.
  - repeat split.
  - destruct (selected img) eqn:Hsel.
    + pose proof (Hsame (command img) fs) as H.
      destruct (exec1 (command img) fs) as [e1 | [rc1 fs1]] eqn:H1;
        destruct (exec2 (command img) fs) as [e2 | [rc2 fs2]] eqn:H2;
        try contradiction; subst.
      * rewrite (loop_raise exec1 img rest fs e2 Hsel H1),
                (loop_raise exec2 img rest fs e2 Hsel H2). repeat split.
      * rewrite (loop_run exec1 img rest fs fs2 rc1 Hsel H1),
                (loop_run exec2 img rest fs fs2 rc2 Hsel H2).
        cbn [trace result final launches].
        destruct (IH fs2) as (Hl & Hr & Hf). rewrite Hl. now repeat split.
    + rewrite (loop_skip exec1 img rest fs Hsel), (loop_skip exec2 img rest fs Hsel).
      apply IH.
Qed.

(** ** The whole run, once the loop is reached *)
Section Reached.
Variable exec : Exec.

Lemma launches_prepared (fs : FS) (o : Outcome unit) :
  Prepared fs o -> launches (trace o) = [] /\ exits (trace o) = [].
Proof. now intros [Hl Hw | inside Hl | Hl Hw | Hl]. Qed.

Lemma exits_app (t1 t2 : list Event) :
  exits (t1 ++ t2) = (exits t1 ++ exits t2)%list.
Proof.
  induction t1 as [|ev t1 IH]; [reflexivity |].
  destruct ev; simpl; now rewrite IH.
Qed.

(** What a run is when [resized] is in place and the listing is granted. *)
Lemma main_reaches_loop (fs : FS) :
  result (Path_mkdir output_dir true fs) = inr tt -> readable fs = true ->
  let o1 := Path_mkdir output_dir true fs in
  let o3 := for_each (map (truediv input_dir) (listing (final o1)))
              (body exec) (final o1) in
  main exec fs = mkOutcome (trace o1 ++ EvListdir :: trace o3) (final o3) (result o3) /\
  launches (trace (main exec fs)) = launches (trace o3) /\
  exits (trace (main exec fs)) = exits (trace o3).
Proof.
  intros Hok Hrd. cbv zeta.
  assert (Hm : main exec fs =
            mkOutcome
              (trace (Path_mkdir output_dir true fs) ++ EvListdir ::
               trace (for_each (map (truediv input_dir)
                                  (listing (final (Path_mkdir output_dir true fs))))
                        (body exec) (final (Path_mkdir output_dir true fs))))
              (final (for_each (map (truediv input_dir)
                                  (listing (final (Path_mkdir output_dir true fs))))
                        (body exec) (final (Path_mkdir output_dir true fs))))
              (result (for_each (map (truediv input_dir)
                                  (listing (final (Path_mkdir output_dir true fs))))
                        (body exec) (final (Path_mkdir output_dir true fs))))).
  { rewrite main_unfold. cbv zeta. rewrite Hok. unfold listdir.
    rewrite (readable_prepared _ _ (prepared fs)), Hrd. reflexivity. }
  split; [exact Hm |]. rewrite Hm. cbn [trace].
  rewrite launches_app, exits_app.
  destruct (launches_prepared _ _ (prepared fs)) as [-> ->]. split; reflexivity.
Qed.

End Reached.

(** ** Names that have a suffix *)
Section SuffixInversion.

Lemma rfind_absent (c : ascii) (s : string) :
  (rfind c s < 0)%Z -> free_of c s = true.
Proof.
  induction s as [|a t IH]; [reflexivity |]. simpl.
  destruct (Z.ltb_spec (rfind c t) 0) as [Hneg | Hpos].
  - destruct (Ascii.eqb a c); [lia |]. intros _. simpl. now apply IH.
  - lia.
Qed.

(** Where [rfind] points there is the character, and none after it. *)
Lemma rfind_found (c : ascii) (s : string) (i : nat) :
  rfind c s = Z.of_nat i ->
  exists p e, s = p ++ String c e /\ String.length p = i /\ free_of c e = true.
Proof.
  revert i. induction s as [|a t IH]; intros i; simpl; [lia |].
  destruct (Z.ltb_spec (rfind c t) 0) as [Hneg | Hpos].
  - destruct (Ascii.eqb_spec a c) as [-> | Hne]; [| lia].
    intros Hi. exists EmptyString, t. repeat split; [simpl; lia |].
    now apply rfind_absent.
  - intros Hi. destruct i as [|i]; [lia |].
    destruct (IH i) as (p & e & -> & Hlen & Hfree); [lia |].
    exists (String a p), e. repeat split; [simpl; now rewrite Hlen | exact Hfree].
Qed.

(** A suffix that is not empty is the last dot of the name and what
    follows it, with something before the dot and something after. *)
Lemma suffix_of_name_inv (nm : string) :
  suffix_of_name nm <> EmptyString ->
  exists p e,
    nm = p ++ String "." e /\ p <> EmptyString /\ e <> EmptyString /\
    free_of "." e = true /\ suffix_of_name nm = String "." e.
Proof.
  unfold suffix_of_name, len.
  destruct (Z.ltb_spec 0 (rfind "." nm)) as [Hpos | Hneg]; [| simpl; congruence].
  destruct (Z.ltb_spec (rfind "." nm) (Z.of_nat (String.length nm) - 1))
    as [Hlt | Hge]; [| simpl; congruence].
  simpl andb. intros _.
  destruct (rfind_found "." nm (Z.to_nat (rfind "." nm))) as (p & e & Hnm & Hlen & Hfree);
    [lia |].
  exists p, e. rewrite <- Hlen.
  assert (Hl : String.length nm = String.length p + S (String.length e)).
  { rewrite Hnm. now rewrite length_app. }
  assert (Hp : p <> EmptyString).
  { destruct p; [simpl in Hlen; lia | discriminate]. }
  assert (He : e <> EmptyString).
  { destruct e; [simpl in Hl; lia | discriminate]. }
  subst nm. rewrite slice_from_app. repeat split; assumption.
Qed.

Lemma lower_cons_inv (s : string) (c : ascii) (t : string) :
  lower s = String c t -> exists a s', s = String a s' /\ lower_char a = c /\ lower s' = t.
Proof.
  destruct s as [|a s']; simpl; [discriminate |].
  intros H. injection H as Hc Ht. now exists a, s'.
Qed.

End SuffixInversion.

(** X6. A name that passes the test of the loop is a stem that is not
    empty, a dot, and one of [jpg], [jpeg], [png], [webp], [bmp] in any
    mix of cases, with no dot after that dot. *)
Theorem selected_has_stem_and_extension (nm : string) :
  selected (input_dir // nm) = true ->
  exists p e : string,
    nm = p ++ "." ++ e /\ p <> EmptyString /\ free_of "." e = true /\
    (lower e = "jpg" \/ lower e = "jpeg" \/ lower e = "png" \/
     lower e = "webp" \/ lower e = "bmp").
Proof.
  intros Hsel. apply selected_iff in Hsel. cbv zeta in Hsel.
  assert (Hne : suffix_of_name nm <> EmptyString).
  { intros Hempty. rewrite Hempty in Hsel. simpl in Hsel.
    destruct Hsel as [H | [H | [H | [H | H]]]]; discriminate. }
  destruct (suffix_of_name_inv nm Hne) as (p & e & Hnm & Hp & _ & Hfree & Hs).
  exists p, e. rewrite Hs in Hsel. simpl lower in Hsel.
  change (lower_char ".") with "."%char in Hsel.
  repeat split; try assumption.
  destruct Hsel as [H | [H | [H | [H | H]]]]; injection H as H; tauto.
Qed.

(** The name [Holiday.Photo.JPeG] passes, with stem [Holiday.Photo]. *)
Lemma selected_has_stem_and_extension_witness :
  exists p e : string,
    "Holiday.Photo.JPeG" = p ++ "." ++ e /\ p <> EmptyString /\
    free_of "." e = true /\
    (lower e = "jpg" \/ lower e = "jpeg" \/ lower e = "png" \/
     lower e = "webp" \/ lower e = "bmp").
Proof. apply (selected_has_stem_and_extension "Holiday.Photo.JPeG"). reflexivity. Defined.

(** X7. A name with no dot in it, and a name that ends in a dot, have no
    suffix and do not pass the test of the loop, whatever else they hold:
    a file named [jpg] or [photo.jpg.] is skipped. *)
Theorem names_without_suffix_skipped :
  (forall nm : string,
     free_of "." nm = true ->
     suffix (input_dir // nm) = EmptyString /\ selected (input_dir // nm) = false) /\
  (forall p : string,
     suffix (input_dir // (p ++ ".")) = EmptyString /\
     selected (input_dir // (p ++ ".")) = false).
Proof.
  split.
  - intros nm Hfree.
    assert (Hs : suffix (input_dir // nm) = EmptyString).
    { unfold suffix. rewrite name_child. now apply suffix_of_name_plain. }
    split; [exact Hs |]. unfold selected. now rewrite Hs.
  - intros p.
    assert (Hs : suffix (input_dir // (p ++ ".")) = EmptyString).
    { unfold suffix. rewrite name_child. apply suffix_of_name_trailing. }
    split; [exact Hs |]. unfold selected. now rewrite Hs.
Qed.

(** The names [jpg] and [photo.jpg.]. *)
Lemma names_without_suffix_skipped_witness :
  selected (input_dir // "jpg") = false /\
  selected (input_dir // "photo.jpg.") = false.
Proof.
  split.
  - apply (proj1 names_without_suffix_skipped "jpg"). reflexivity.
  - apply (proj2 names_without_suffix_skipped "photo.jpg").
Defined.

(** ** Destinations *)
Section Destinations.

Lemma candidates_names (names : list string) :
  candidates names =
  map (truediv input_dir) (filter (fun nm => selected (input_dir // nm)) names).
Proof.
  unfold candidates. induction names as [|nm names IH]; [reflexivity |].
  simpl. destruct (selected (input_dir // nm)); simpl; now rewrite IH.
Qed.

Lemma NoDup_firstn {A : Type} (k : nat) (l : list A) :
  NoDup l -> NoDup (firstn k l).
Proof.
  intros H. rewrite <- (firstn_skipn k l) in H.
  now apply NoDup_app_remove_r in H.
Qed.

Lemma NoDup_map_injective {A B : Type} (f : A -> B) (l : list A) :
  (forall x y, f x = f y -> x = y) -> NoDup l -> NoDup (map f l).
Proof.
  intros Hinj. induction 1 as [|x l Hx _ IH]; simpl; constructor; [| exact IH].
  intros Hin. apply in_map_iff in Hin as (y & Hy & Hyl).
  apply Hinj in Hy. now subst.
Qed.

Lemma dest_of_command (nm : string) :
  dest_of (command (input_dir // nm)) = "resized/" ++ nm.
Proof. now rewrite command_entry. Qed.

Lemma source_of_command (nm : string) :
  source_of (command (input_dir // nm)) = nm.
Proof. now rewrite command_entry. Qed.

End Destinations.

(** X1. In a directory whose entries have names of their own, no two
    launches of a run read the same file and no two write the same file;
    and each launch writes under [resized] the name it reads. *)
Theorem destinations_distinct (exec : Exec) (fs : FS) :
  NoDup (listing fs) ->
  NoDup (map source_of (launches (trace (main exec fs)))) /\
  NoDup (map dest_of (launches (trace (main exec fs)))) /\
  Forall (fun argv => dest_of argv = "resized/" ++ source_of argv)
         (launches (trace (main exec fs))).
Proof.
  intros Hnd. destruct (run_launches_prefix exec fs) as [k Hk]. rewrite Hk.
  rewrite candidates_names, !map_map.
  set (kept := filter (fun nm => selected (input_dir // nm)) (listing fs)).
  assert (Hkept : NoDup kept) by now apply NoDup_filter.
  rewrite <- !firstn_map, !map_map.
  split; [| split].
  - apply NoDup_firstn. apply NoDup_map_injective; [| exact Hkept].
    intros x y. now rewrite !source_of_command.
  - apply NoDup_firstn. apply NoDup_map_injective; [| exact Hkept].
    intros x y. rewrite !dest_of_command. intros H. now injection H.
  - apply Forall_forall. intros argv Hin. apply In_firstn in Hin.
    apply in_map_iff in Hin as (nm & <- & _).
    now rewrite dest_of_command, source_of_command.
Qed.

(** The directory with three images. *)
Lemma destinations_distinct_witness :
  NoDup (map dest_of (launches (trace (main tool_writing album)))).
Proof.
  apply (destinations_distinct tool_writing album).
  unfold listing. simpl.
  repeat constructor; simpl; intuition discriminate.
Defined.

(** X2. The output directory is made before the directory is listed: when
    the listing is refused, the script ends with [PermissionError] and has
    launched nothing, and [resized] is there all the same. *)
Theorem listing_refused_after_mkdir (exec : Exec) (fs : FS) :
  result (Path_mkdir output_dir true fs) = inr tt ->
  readable fs = false ->
  result (main exec fs) = inl PermissionError /\
  conversions (trace (main exec fs)) = [] /\
  final (main exec fs) = final (Path_mkdir output_dir true fs) /\
  isdir "resized" (final (main exec fs)) = true.
Proof.
  intros Hok Hrd. rewrite main_unfold. cbv zeta. rewrite Hok. unfold listdir.
  rewrite (readable_prepared _ _ (prepared fs)), Hrd. cbn [result trace final].
  rewrite conversions_app, (conversions_prepared _ _ (prepared fs)).
  repeat split. exact (isdir_prepared fs _ (prepared fs) Hok).
Qed.

(** A directory that can be written and cannot be listed. *)
Lemma listing_refused_after_mkdir_witness :
  result (main tool_ok unlistable) = inl PermissionError /\
  isdir "resized" (final (main tool_ok unlistable)) = true.
Proof.
  destruct (listing_refused_after_mkdir tool_ok unlistable eq_refl eq_refl)
    as (Hres & _ & _ & Hdir).
  split; assumption.
Defined.

(** X3. The script never reads a return code: with two tools that raise
    alike and change the file system alike, and differ in what their
    children return, the runs make the same launches in the same order,
    end the same way and leave the same file system. *)
Theorem return_codes_unread (exec1 exec2 : Exec) (fs : FS) :
  same_but_codes exec1 exec2 ->
  launches (trace (main exec1 fs)) = launches (trace (main exec2 fs)) /\
  result (main exec1 fs) = result (main exec2 fs) /\
  final (main exec1 fs) = final (main exec2 fs).
Proof.
  intros Hsame. rewrite !main_unfold. cbv zeta.
  destruct (result (Path_mkdir output_dir true fs)) as [e | u];
    [repeat split |].
  destruct (listdir (final (Path_mkdir output_dir true fs))) as [e | names];
    [repeat split |].
  cbn [trace result final]. rewrite !launches_app. cbn [launches].
  destruct (loop_codes_unread exec1 exec2 (map (truediv input_dir) names)
              (final (Path_mkdir output_dir true fs)) Hsame) as (Hl & Hr & Hf).
  rewrite Hl. now repeat split.
Qed.

(** A tool that returns 0 on every file and one that returns 1. *)
Lemma return_codes_unread_witness :
  launches (trace (main tool_ok photos)) = launches (trace (main tool_failing photos)) /\
  result (main tool_ok photos) = result (main tool_failing photos).
Proof.
  destruct (return_codes_unread tool_ok tool_failing photos) as (Hl & Hr & _).
  - intros argv w. reflexivity.
  - split; assumption.
Defined.

(** X4. With nothing to convert the script never needs the tool: once
    [resized] is in place and the directory is listed, the run starts no
    child and ends without an exception, also when no launch could ever
    succeed. *)
Theorem nothing_to_convert (exec : Exec) (fs : FS) :
  result (Path_mkdir output_dir true fs) = inr tt ->
  readable fs = true ->
  candidates (listing fs) = [] ->
  result (main exec fs) = inr tt /\
  conversions (trace (main exec fs)) = [] /\
  final (main exec fs) = final (Path_mkdir output_dir true fs).
Proof.
  intros Hok Hrd Hnone.
  destruct (main_reaches_loop exec fs Hok Hrd) as (Hm & _ & _). cbv zeta in Hm.
  rewrite <- (candidates_prepared _ _ (prepared fs)) in Hnone.
  unfold candidates in Hnone.
  rewrite (loop_nothing_kept exec _ _ Hnone) in Hm. cbn [trace final result] in Hm.
  rewrite Hm. cbn [trace final result].
  rewrite conversions_app, (conversions_prepared _ _ (prepared fs)).
  repeat split.
Qed.

(** A directory without images, and no [magick] to launch. *)
Lemma nothing_to_convert_witness :
  result (main tool_missing no_images) = inr tt /\
  conversions (trace (main tool_missing no_images)) = [].
Proof.
  destruct (nothing_to_convert tool_missing no_images eq_refl eq_refl eq_refl)
    as (Hres & Hconv & _).
  split; assumption.
Defined.

(** X8. Once the loop is reached, the file system a run leaves is the one
    its children leave, run one after another on the candidates in listing
    order from the file system the creation of [resized] left, up to the
    first launch that raises: the script adds nothing between them. *)
Theorem final_state_is_replay (exec : Exec) (fs : FS) :
  result (Path_mkdir output_dir true fs) = inr tt ->
  readable fs = true ->
  final (main exec fs) =
  replay exec (map command (candidates (listing fs)))
    (final (Path_mkdir output_dir true fs)).
Proof.
  intros Hok Hrd.
  destruct (main_reaches_loop exec fs Hok Hrd) as (Hm & _ & _). cbv zeta in Hm.
  rewrite Hm. cbn [final]. rewrite loop_final_replay.
  rewrite <- (candidates_prepared _ _ (prepared fs)). reflexivity.
Qed.

(** A tool that writes its outputs into [resized]. *)
Lemma final_state_is_replay_witness :
  final (main tool_writing photos) =
  mkFS [File "a.jpg"; File "b.PNG"; File "c.txt"; File "notes.md";
        Dir "resized" [File "a.jpg"; File "b.PNG"]] true true.
Proof.
  rewrite (final_state_is_replay tool_writing photos eq_refl eq_refl).
  reflexivity.
Defined.

(** X9. When an exception ends a run that reached the loop, the
    candidates split in three: those before the one whose launch raised
    were launched and waited for, in order; that one was launched; no
    later one was. *)
Theorem launch_failure_midway (exec : Exec) (fs : FS) (e : Exn) :
  result (Path_mkdir output_dir true fs) = inr tt ->
  readable fs = true ->
  result (main exec fs) = inl e ->
  exists (done : list Path) (c : Path) (rest : list Path),
    candidates (listing fs) = (done ++ c :: rest)%list /\
    launches (trace (main exec fs)) = map command (done ++ [c]) /\
    length (exits (trace (main exec fs))) = length done.
Proof.
  intros Hok Hrd Hres.
  destruct (main_reaches_loop exec fs Hok Hrd) as (Hm & Hl & Hx). cbv zeta in *.
  rewrite Hm in Hres. cbn [result] in Hres.
  destruct (loop_stops_at_raise exec _ _ e Hres) as (done & c & rest & Hf & Hl' & Hx').
  exists done, c, rest. rewrite Hl, Hx, Hl', Hx'.
  rewrite <- (candidates_prepared _ _ (prepared fs)). unfold candidates.
  now rewrite Hf.
Qed.

(** Three images and a tool that cannot be started on the second. *)
Lemma launch_failure_midway_witness :
  exists (done : list Path) (c : Path) (rest : list Path),
    candidates (listing album) = (done ++ c :: rest)%list /\
    launches (trace (main tool_choking album)) = map command (done ++ [c]) /\
    length (exits (trace (main tool_choking album))) = length done.
Proof.
  apply (launch_failure_midway tool_choking album PermissionError);
    reflexivity.
Defined.

(** X5. With a tool that leaves the working directory alone the script
    keeps no memory of a run: run again on what the first run left, it
    makes the same launches in the same order, ends the same way and
    leaves the same file system. *)
Theorem second_run_repeats (exec : Exec) (fs : FS) :
  inert exec ->
  launches (trace (main exec (final (main exec fs)))) =
    launches (trace (main exec fs)) /\
  result (main exec (final (main exec fs))) = result (main exec fs) /\
  final (main exec (final (main exec fs))) = final (main exec fs).
Proof.
  intros Hin. rewrite (run_inert exec fs Hin).
  destruct (result (Path_mkdir output_dir true fs)) as [e | []] eqn:Hres.
  - assert (Hf : final (Path_mkdir output_dir true fs) = fs).
    { pose proof (prepared fs) as Hp.
      remember (Path_mkdir output_dir true fs) as o eqn:Ho. clear Ho.
      destruct Hp; simpl in *; congruence. }
    rewrite Hf. rewrite (run_inert exec fs Hin), Hf. repeat split.
  - pose proof (isdir_prepared _ _ (prepared fs) Hres) as Hdir.
    set (fs1 := final (Path_mkdir output_dir true fs)) in *.
    rewrite (run_inert exec fs1 Hin).
    rewrite (main_unfold exec fs1), (main_unfold exec fs). cbv zeta.
    rewrite Hres. fold fs1. rewrite (mkdir_existing fs1 Hdir).
    cbn [result final trace].
    destruct (listdir fs1) as [e | names].
    + cbn [trace result]. rewrite !launches_app.
      destruct (launches_prepared _ _ (prepared fs)) as [-> _]. repeat split.
    + cbn [trace result]. rewrite !launches_app.
      destruct (launches_prepared _ _ (prepared fs)) as [-> _]. repeat split.
Qed.

(** Two runs over the sample directory. *)
Lemma second_run_repeats_witness :
  launches (trace (main tool_ok (final (main tool_ok photos)))) =
    [command (input_dir // "a.jpg"); command (input_dir // "b.PNG")].
Proof.
  destruct (second_run_repeats tool_ok photos) as (Hl & _ & _).
  - intros argv w rc w' H. unfold tool_ok in H. congruence.
  - rewrite Hl. reflexivity.
Defined.

(** ** Reaching a candidate *)
Section Reach.
Variable exec : Exec.

(** The loop at its first kept path, when the launch for it raises. *)
Lemma loop_head_raise (imgs : list Path) (fs : FS) (c : Path) (rest : list Path) (e : Exn) :
  filter selected imgs = c :: rest -> exec (command c) fs = inl e ->
  for_each imgs (body exec) fs = mkOutcome [EvLaunch (command c)] fs (inl e).
Proof.
  induction imgs as [|img others IH]; simpl filter; [discriminate |].
  destruct (selected img) eqn:Hsel.
  - intros Heq Hex. injection Heq as -> _.
    exact (loop_raise exec c others fs e Hsel Hex).
  - intros Heq Hex. rewrite (loop_skip exec img others fs Hsel). now apply IH.
Qed.

(** The loop at its first kept path, when the child runs and exits. *)
Lemma loop_head_run (imgs : list Path) (fs fs' : FS) (c : Path) (rest : list Path) (rc : Z) :
  filter selected imgs = c :: rest -> exec (command c) fs = inr (rc, fs') ->
  exists imgs',
    filter selected imgs' = rest /\
    for_each imgs (body exec) fs =
    mkOutcome (EvLaunch (command c) :: EvExit rc :: trace (for_each imgs' (body exec) fs'))
              (final (for_each imgs' (body exec) fs'))
              (result (for_each imgs' (body exec) fs')).
Proof.
  induction imgs as [|img others IH]; simpl filter; [discriminate |].
  destruct (selected img) eqn:Hsel.
  - intros Heq Hex. injection Heq as -> Hrest. exists others. split; [exact Hrest |].
    exact (loop_run exec c others fs fs' rc Hsel Hex).
  - intros Heq Hex. rewrite (loop_skip exec img others fs Hsel). now apply IH.
Qed.

(** The first kept path is launched, whatever comes of it. *)
Lemma loop_head_launched (imgs : list Path) (fs : FS) (c : Path) (rest : list Path) :
  filter selected imgs = c :: rest ->
  exists more, launches (trace (for_each imgs (body exec) fs)) = command c :: more.
Proof.
  intros Heq. destruct (exec (command c) fs) as [e | [rc fs']] eqn:Hex.
  - rewrite (loop_head_raise imgs fs c rest e Heq Hex). now exists [].
  - destruct (loop_head_run imgs fs fs' c rest rc Heq Hex) as (imgs' & _ & ->).
    cbn [trace launches]. eauto.
Qed.

(** When the launches for the first kept paths all start, the loop comes
    to the path after them in the file system their children left. *)
Lemma loop_split (imgs : list Path) (fs : FS) (done tail : list Path) :
  filter selected imgs = (done ++ tail)%list ->
  starts exec (map command done) fs = true ->
  exists (t0 : list Event) (imgs' : list Path),
    filter selected imgs' = tail /\
    launches t0 = map command done /\
    length (exits t0) = length done /\
    for_each imgs (body exec) fs =
    mkOutcome
      (t0 ++ trace (for_each imgs' (body exec) (replay exec (map command done) fs)))
      (final (for_each imgs' (body exec) (replay exec (map command done) fs)))
      (result (for_each imgs' (body exec) (replay exec (map command done) fs))).
Proof.
  revert imgs fs. induction done as [|d done IH]; intros imgs fs Heq Hst.
  - exists [], imgs. cbn [map replay app]. repeat split; [exact Heq |].
    symmetry. apply outcome_eta.
  - cbn [map starts replay] in *.
    destruct (exec (command d) fs) as [e | [rc fs']] eqn:Hex; [discriminate |].
    destruct (loop_head_run imgs fs fs' d (done ++ tail) rc Heq Hex)
      as (imgs1 & Heq1 & ->).
    destruct (IH imgs1 fs' Heq1 Hst) as (t0 & imgs' & Htail & Hl & Hx & ->).
    exists (EvLaunch (command d) :: EvExit rc :: t0), imgs'.
    cbn [trace final result launches exits length app]. rewrite Hl, Hx.
    repeat split. exact Htail.
Qed.

(** When one of the launches for the first kept paths raises, the loop
    ends among them. *)
Lemma loop_unreached (imgs : list Path) (fs : FS) (done tail : list Path) :
  filter selected imgs = (done ++ tail)%list ->
  starts exec (map command done) fs = false ->
  exists k, k <= length done /\
            launches (trace (for_each imgs (body exec) fs)) = map command (firstn k done).
Proof.
  revert imgs fs. induction done as [|d done IH]; intros imgs fs Heq Hst;
    [discriminate |].
  cbn [map starts] in Hst.
  destruct (exec (command d) fs) as [e | [rc fs']] eqn:Hex.
  - rewrite (loop_head_raise imgs fs d (done ++ tail) e Heq Hex).
    exists 1. split; [simpl; lia | reflexivity].
  - destruct (loop_head_run imgs fs fs' d (done ++ tail) rc Heq Hex)
      as (imgs1 & Heq1 & ->).
    destruct (IH imgs1 fs' Heq1 Hst) as (k & Hk & Hl).
    exists (S k). split; [simpl; lia |]. cbn [trace launches firstn map].
    now rewrite Hl.
Qed.

End Reach.

(** ** A run, candidate by candidate *)
Section ReachRun.
Variable exec : Exec.

(** The loop of a run that reached it, over the candidates of the
    directory as it was found. *)
Lemma run_loop (fs : FS) :
  result (Path_mkdir output_dir true fs) = inr tt -> readable fs = true ->
  exists imgs,
    filter selected imgs = candidates (listing fs) /\
    result (main exec fs) =
      result (for_each imgs (body exec) (final (Path_mkdir output_dir true fs))) /\
    launches (trace (main exec fs)) =
      launches (trace (for_each imgs (body exec) (final (Path_mkdir output_dir true fs)))) /\
    exits (trace (main exec fs)) =
      exits (trace (for_each imgs (body exec) (final (Path_mkdir output_dir true fs)))).
Proof.
  intros Hok Hrd.
  destruct (main_reaches_loop exec fs Hok Hrd) as (Hm & Hl & Hx). cbv zeta in *.
  exists (map (truediv input_dir) (listing (final (Path_mkdir output_dir true fs)))).
  split; [exact (candidates_prepared _ _ (prepared fs)) |].
  split; [now rewrite Hm | split; assumption].
Qed.

(** A candidate is launched when no launch before it raised. *)
Lemma run_reached (fs : FS) (done : list Path) (c : Path) (rest : list Path) :
  result (Path_mkdir output_dir true fs) = inr tt -> readable fs = true ->
  candidates (listing fs) = (done ++ c :: rest)%list ->
  starts exec (map command done) (final (Path_mkdir output_dir true fs)) = true ->
  exists more,
    launches (trace (main exec fs)) = (map command done ++ command c :: more)%list.
Proof.
  intros Hok Hrd Hc Hst.
  destruct (run_loop fs Hok Hrd) as (imgs & Hf & _ & Hl & _). rewrite Hl.
  rewrite Hc in Hf.
  destruct (loop_split exec imgs _ done (c :: rest) Hf Hst)
    as (t0 & imgs' & Htail & Hl0 & _ & ->).
  cbn [trace]. rewrite launches_app, Hl0.
  destruct (loop_head_launched exec imgs'
              (replay exec (map command done) (final (Path_mkdir output_dir true fs)))
              c rest Htail) as (more & ->).
  now exists more.
Qed.

End ReachRun.

(** C1, as the script has it.  Take a candidate of a run that reached the
    loop.  When no launch before it raised, it is launched; if its child
    then exits, with whatever return code, the run goes on: the next
    candidate is launched, or the run ends without an exception when
    there is none; if its launch raises, the script ends with that
    exception and launches no later candidate.  When a launch before it
    raised, it is not launched. *)
Theorem exit_status_ignored
    (exec : Exec) (fs : FS) (done : list Path) (c : Path) (rest : list Path) :
  result (Path_mkdir output_dir true fs) = inr tt ->
  readable fs = true ->
  candidates (listing fs) = (done ++ c :: rest)%list ->
  let fs1 := final (Path_mkdir output_dir true fs) in
  let w := replay exec (map command done) fs1 in
  let t := trace (main exec fs) in
  (starts exec (map command done) fs1 = true ->
     (exists more, launches t = (map command done ++ command c :: more)%list) /\
     (forall (rc : Z) (w' : FS),
        exec (command c) w = inr (rc, w') ->
        nth_error (exits t) (length done) = Some rc /\
        match rest with
        | [] => result (main exec fs) = inr tt /\
                launches t = map command (done ++ [c])
        | c' :: _ =>
            exists more,
              launches t = (map command (done ++ [c]) ++ command c' :: more)%list
        end) /\
     (forall e : Exn,
        exec (command c) w = inl e ->
        result (main exec fs) = inl e /\
        launches t = map command (done ++ [c]) /\
        length (exits t) = length done)) /\
  (starts exec (map command done) fs1 = false ->
     exists k, k <= length done /\ launches t = map command (firstn k done)).
Proof.
  intros Hok Hrd Hc. cbv zeta.
  destruct (run_loop exec fs Hok Hrd) as (imgs & Hf & Hr & Hl & Hx).
  rewrite Hc in Hf. rewrite Hr, Hl, Hx. clear Hr Hl Hx.
  set (fs1 := final (Path_mkdir output_dir true fs)).
  split.
  - intros Hst.
    destruct (loop_split exec imgs fs1 done (c :: rest) Hf Hst)
      as (t0 & imgs' & Htail & Hl0 & Hx0 & ->).
    cbn [trace result]. rewrite launches_app, exits_app, Hl0.
    set (w := replay exec (map command done) fs1) in *.
    split; [| split].
    + destruct (loop_head_launched exec imgs' w c rest Htail) as (more & ->).
      now exists more.
    + intros rc w' Hex.
      destruct (loop_head_run exec imgs' w w' c rest rc Htail Hex)
        as (imgs'' & Hrest & ->).
      cbn [trace result launches exits]. split.
      * rewrite nth_error_app2; rewrite Hx0; [| lia].
        now rewrite Nat.sub_diag.
      * destruct rest as [|c' rest'].
        -- rewrite (loop_nothing_kept exec imgs'' w' Hrest). cbn [trace result launches].
           split; [reflexivity |]. now rewrite map_app.
        -- destruct (loop_head_launched exec imgs'' w' c' rest' Hrest) as (more & ->).
           exists more. rewrite map_app, <- app_assoc. reflexivity.
    + intros e Hex. rewrite (loop_head_raise exec imgs' w c rest e Htail Hex).
      cbn [trace result launches exits]. rewrite map_app, app_nil_r.
      repeat split. exact Hx0.
  - intros Hst. exact (loop_unreached exec imgs fs1 done (c :: rest) Hf Hst).
Qed.

(** Three images and a tool that exits with status 1 on [a.jpg] and
    cannot be started on [b.PNG]: the failure on [a.jpg] is passed over
    and [b.PNG] is launched; the launch for [b.PNG] raises, the script
    ends with that exception, and [c.webp] is not launched. *)
Lemma exit_status_ignored_witness :
  (exists more,
     launches (trace (main tool_mixed album)) =
       (map command [input_dir // "a.jpg"] ++ command (input_dir // "b.PNG") :: more)%list) /\
  result (main tool_mixed album) = inl PermissionError /\
  launches (trace (main tool_mixed album)) =
    map command [input_dir // "a.jpg"; input_dir // "b.PNG"].
Proof.
  split.
  - destruct (exit_status_ignored tool_mixed album []
                (input_dir // "a.jpg") [input_dir // "b.PNG"; input_dir // "c.webp"]
                eq_refl eq_refl eq_refl) as [H _].
    destruct (H eq_refl) as (_ & Hexit & _).
    destruct (Hexit 1%Z (final (Path_mkdir output_dir true album)) eq_refl)
      as (_ & more & Hl).
    exists more. exact Hl.
  - destruct (exit_status_ignored tool_mixed album [input_dir // "a.jpg"]
                (input_dir // "b.PNG") [input_dir // "c.webp"]
                eq_refl eq_refl eq_refl) as [H _].
    destruct (H eq_refl) as (_ & _ & Hraise).
    destruct (Hraise PermissionError eq_refl) as (Hres & Hl & _).
    split; assumption.
Defined.

(** C3. The argument list built for an entry is the tool name and four
    more tokens: the path of the entry, [-resize], [512x512>] and the path
    of the entry's own name under the output directory.  Every launch of a
    run has that argument list, for a selected entry of the listing; a
    candidate of a run that reached the loop is launched with it when no
    launch before it raised; and a run that ends without an exception
    launched exactly these argument lists, one per selected entry, in
    listing order. *)
Theorem command_shape (exec : Exec) (fs : FS) :
  (forall img : Path,
     command img =
       ["magick"; str img; "-resize"; "512x512>"; str (output_dir // name img)] /\
     length (command img) = 5 /\
     name (output_dir // name img) = name img) /\
  (forall nm : string,
     command (input_dir // nm) =
       ["magick"; nm; "-resize"; "512x512>"; "resized/" ++ nm]) /\
  Forall (fun argv =>
            exists nm, In nm (listing fs) /\ selected (input_dir // nm) = true /\
                       argv = ["magick"; nm; "-resize"; "512x512>"; "resized/" ++ nm])
         (launches (trace (main exec fs))) /\
  (result (Path_mkdir output_dir true fs) = inr tt ->
   readable fs = true ->
   forall (done : list Path) (c : Path) (rest : list Path),
     candidates (listing fs) = (done ++ c :: rest)%list ->
     starts exec (map command done) (final (Path_mkdir output_dir true fs)) = true ->
     nth_error (launches (trace (main exec fs))) (length done) =
       Some ["magick"; str c; "-resize"; "512x512>"; str (output_dir // name c)]) /\
  (result (main exec fs) = inr tt ->
   launches (trace (main exec fs)) =
     map (fun nm => ["magick"; nm; "-resize"; "512x512>"; "resized/" ++ nm])
         (filter (fun nm => selected (input_dir // nm)) (listing fs))).
Proof.
  split; [| split; [| split; [| split]]].
  - intros img. repeat split.
  - exact command_entry.
  - apply Forall_forall. intros argv Hin.
    destruct (run_launches_candidates exec fs argv Hin) as (nm & Hnm & Hsel & ->).
    exists nm. now rewrite command_entry.
  - intros Hok Hrd done c rest Hc Hst.
    destruct (run_reached exec fs done c rest Hok Hrd Hc Hst) as (more & ->).
    rewrite nth_error_app2; rewrite length_map; [| lia].
    now rewrite Nat.sub_diag.
  - intros Hres. destruct (run_complete exec fs Hres) as [-> _].
    rewrite candidates_names, map_map. apply map_ext. exact command_entry.
Qed.

(** A complete run over the sample directory: two launches, each with
    its five tokens. *)
Lemma command_shape_witness :
  launches (trace (main tool_ok photos)) =
    [["magick"; "a.jpg"; "-resize"; "512x512>"; "resized/a.jpg"];
     ["magick"; "b.PNG"; "-resize"; "512x512>"; "resized/b.PNG"]].
Proof.
  rewrite (proj2 (proj2 (proj2 (proj2 (command_shape tool_ok photos)))) eq_refl).
  reflexivity.
Defined.
